(** * Binomial proportion test of the A/B-testing and hypothesis-testing notebooks

    The notebooks compute p-values with one-line calls into [scipy.stats]:

    - [abtest.ipynb]: [stats.binom.ppf(0.99, n=n, p=p)],
      [1 - stats.binom.cdf(c-1, n=n, p=p)], the A/B cell with [pa = ca/na],
      and the library call
      [stats.binomtest(c, n=n, p=p0, alternative='greater').pvalue];
    - [hypothesis_testing.ipynb]: [1 - st.norm.cdf(xbar, ...)],
      [2*(1 - st.norm.cdf(xbar, ...))] and
      [2*np.minimum(st.norm.cdf(obs, ...), 1 - st.norm.cdf(obs, ...))].

    Python [int]s are unbounded and are embedded as [Z].  A finite Python
    [float] is a rational number; floats are embedded as [Q] and every
    operation returns the exact result: the embedding gives the quantity
    a computation stands for, not its last binary digits.  [nan] is a
    separate value.  Python exceptions are the left summand of the error
    monad [sum exn]. *)

From Stdlib Require Import ZArith QArith Qabs Qround Qminmax Lqa Lia List Bool.
From ExtLib Require Import Structures.Monad Structures.MonadExc Data.Monads.EitherMonad.
Import ListNotations.
Import MonadNotation.
Local Open Scope monad_scope.
Local Open Scope Q_scope.

(** ** The binomial distribution *)

(** [sum_to m f] is [f 0 + ... + f (m-1)]. *)
Fixpoint sum_to (m : nat) (f : nat -> Q) : Q :=
  match m with
  | O => 0
  | S m' => sum_to m' f + f m'
  end.

(** [Qpow q k] is [q] to the [k]-th power, with [Qpow q 0 = 1]. *)
Fixpoint Qpow (q : Q) (k : nat) : Q :=
  match k with
  | O => 1
  | S k' => q * Qpow q k'
  end.

(** One step of Pascal's triangle: from row [n] (preceded by [prev]) to
    row [n+1]. *)
Fixpoint next_row (prev : Z) (row : list Z) : list Z :=
  match row with
  | [] => [prev]
  | x :: r => (prev + x)%Z :: next_row x r
  end.

(** Row [n] of Pascal's triangle: [C(n,0); ...; C(n,n)]. *)
Fixpoint pascal_row (n : nat) : list Z :=
  match n with
  | O => [1%Z]
  | S n' => next_row 0%Z (pascal_row n')
  end.

(** The binomial coefficient "n choose k"; it is 0 when [n < k]. *)
Definition choose (n k : nat) : Z := nth k (pascal_row n) 0%Z.

(** Probability mass function of Binomial(n, p):
    [C(n,k) p^k (1-p)^(n-k)]. *)
Definition pmf (n : nat) (p : Q) (k : nat) : Q :=
  inject_Z (choose n k) * Qpow p k * Qpow (1 - p) (n - k).

(** [P(X <= k)] for [X ~ Binomial(n, p)]: the sum of the first [k+1] masses. *)
Definition cdf_sum (n : nat) (p : Q) (k : nat) : Q := sum_to (S k) (pmf n p).

(** [P(X >= c)]: the masses at [c, c+1, ..., n]. *)
Definition tail_sum (n : nat) (p : Q) (c : nat) : Q :=
  sum_to (S n - c) (fun i => pmf n p (c + i)).

(** *** Integer form

    For a rate [a/d] every mass of Binomial(n, a/d) is an integer over the
    common denominator [d^n]; sums of masses are then sums of integers. *)





(** ** Python values *)

(** A Python float: a finite value or [nan]. *)
Inductive pyfloat : Type :=
| Fin (q : Q)
| NaN.

(** Float arithmetic; [nan] propagates, and two finite values give their
    exact difference or product. *)
Definition fsub (x y : pyfloat) : pyfloat :=
  match x, y with
  | Fin a, Fin b => Fin (a - b)
  | _, _ => NaN
  end.

Definition fmul (x y : pyfloat) : pyfloat :=
  match x, y with
  | Fin a, Fin b => Fin (a * b)
  | _, _ => NaN
  end.

(** [np.minimum] on two floats. *)
Definition fminimum (x y : pyfloat) : pyfloat :=
  match x, y with
  | Fin a, Fin b => Fin (Qmin a b)
  | _, _ => NaN
  end.

(** Exceptions a cell can raise. *)
Inductive exn : Type :=
| ValueError.

(** A computation returns a value or raises. *)
Definition result : Type -> Type := sum exn.

(** ** [scipy.stats]

    The library is not part of the repository; its functions are modelled
    by what they compute: the cumulative distribution function and the
    survival function of the binomial distribution, [nan] for parameters
    outside the distribution's domain, and the argument checks of
    [binomtest]. *)

(** [binom._argcheck(n, p)]: [n >= 0] and [0 <= p <= 1]. *)
Definition binom_argcheck (n : Z) (p : Q) : bool :=
  (0 <=? n)%Z && Qle_bool 0 p && Qle_bool p 1.

(** The distribution function on valid parameters: 1 at or above the
    support's upper end [n], 0 below 0, the partial sum in between. *)
Definition binom_cdf (k n : Z) (p : Q) : Q :=
  if (n <=? k)%Z then 1
  else if (k <? 0)%Z then 0
  else cdf_sum (Z.to_nat n) p (Z.to_nat k).

(** The survival function [P(X > k)] on valid parameters. *)
Definition binom_sf (k n : Z) (p : Q) : Q :=
  if (k <? 0)%Z then 1
  else if (n <=? k)%Z then 0
  else tail_sum (Z.to_nat n) p (S (Z.to_nat k)).

(** [stats.binom.cdf(k, n=n, p=p)]. *)
Definition stats_binom_cdf (k n : Z) (p : Q) : pyfloat :=
  if binom_argcheck n p then Fin (binom_cdf k n p) else NaN.

(** [stats.binom.sf(k, n=n, p=p)]. *)
Definition stats_binom_sf (k n : Z) (p : Q) : pyfloat :=
  if binom_argcheck n p then Fin (binom_sf k n p) else NaN.

(** [stats.binomtest(k, n=n, p=p, alternative='greater').pvalue]: the
    library validates [k >= 0], [n >= 1], [k <= n] and [0 <= p <= 1], raising
    [ValueError] otherwise, and then takes the survival function at [k-1]. *)
Definition stats_binomtest_greater (k n : Z) (p : Q) : result pyfloat :=
  if (k <? 0)%Z then raise ValueError
  else if (n <? 1)%Z then raise ValueError
  else if (n <? k)%Z then raise ValueError
  else if negb (Qle_bool 0 p && Qle_bool p 1) then raise ValueError
  else ret (stats_binom_sf (k - 1) n p).

(** ** Cells of [abtest.ipynb] *)

(** [1-stats.binom.cdf(c-1, n=n, p=p)]: the p-value of the proportion test
    with alternative "greater" (cells "Testing a new website version",
    "The A/B test" and "comparing classifiers"). *)
Definition pvalue_greater (c n : Z) (p : Q) : result pyfloat :=
  ret (fsub (Fin 1) (stats_binom_cdf (c - 1) n p)).

(** The same test through the library:
    [stats.binomtest(c, n=n, p=p0, alternative='greater').pvalue]. *)
Definition binomtest_pvalue (c n : Z) (p0 : Q) : result pyfloat :=
  stats_binomtest_greater c n p0.

(** *** Stored outputs

    The numbers the notebook keeps as the printed results of its cells.
    Python prints a float as the shortest decimal that reads back as the same
    float, so two different printed values are two different floats. *)





(** ** Cells of [hypothesis_testing.ipynb]

    [cdf] stands for [st.norm.cdf(., loc=mu, scale=sigma)]: a function from
    floats to floats. *)

(** [p = 1-st.norm.cdf(xbar, loc=mu, scale=sigma_xbar)]. *)
Definition one_tailed_p (cdf : Q -> Q) (xbar : Q) : Q := 1 - cdf xbar.

(** [p = 2*(1-st.norm.cdf(xbar, loc=mu, scale=sigma_xbar))], with the cell's
    comment "If xbar < mu, we should use: p = 2*st.norm.cdf(xbar, ...)". *)
Definition two_sided_upper_p (cdf : Q -> Q) (xbar : Q) : Q := 2 * (1 - cdf xbar).
Definition two_sided_lower_p (cdf : Q -> Q) (xbar : Q) : Q := 2 * cdf xbar.

(** Elementwise array operations of numpy. *)
Definition np_minimum (a b : list Q) : list Q :=
  map (fun xy => Qmin (fst xy) (snd xy)) (combine a b).
Definition np_rsub (s : Q) (a : list Q) : list Q := map (fun x => s - x) a.
Definition np_scale (s : Q) (a : list Q) : list Q := map (fun x => s * x) a.

(** [p_values = 2*np.minimum(st.norm.cdf(observations, ...),
                             1-st.norm.cdf(observations, ...))]. *)
Definition p_values (cdf : Q -> Q) (observations : list Q) : list Q :=
  np_scale 2 (np_minimum (map cdf observations) (np_rsub 1 (map cdf observations))).

(** The two-tailed p-value of one observation. *)
Definition two_tailed_p (cdf : Q -> Q) (x : Q) : Q := 2 * Qmin (cdf x) (1 - cdf x).

(** ** The proportion test as the specification describes it *)

Inductive alternative : Type :=
| greater
| less
| two_sided.

(** Modelled from the spec: the notebooks compute the proportion test only for
    the alternative "greater"; the p-value for "less", [CDF(c; n, p0)], is
    missing from them. *)
Definition pvalue_less (c n : Z) (p0 : Q) : result pyfloat :=
  ret (stats_binom_cdf c n p0).

(** Modelled from the spec: the two-sided binomial p-value is missing from the
    notebooks; it is [2 * min(P(X >= c), P(X <= c))], capped at 1.0, with
    [P(X >= c)] the upper tail and [P(X <= c)] the distribution function. *)
Definition pvalue_two_sided (c n : Z) (p0 : Q) : result pyfloat :=
  ret (fminimum (Fin 1)
         (fmul (Fin 2)
            (fminimum (stats_binom_sf (c - 1) n p0) (stats_binom_cdf c n p0)))).

(** Modelled from the spec: the dispatcher [test_proportion(c, n, p0,
    alternative)] is missing from the notebooks; its "greater" branch is the
    notebooks' own expression. *)
Definition test_proportion (c n : Z) (p0 : Q) (alt : alternative) : result pyfloat :=
  match alt with
  | greater => pvalue_greater c n p0
  | less => pvalue_less c n p0
  | two_sided => pvalue_two_sided c n p0
  end.

(** ** Observing results *)

(** The float is finite and equal to [v]. *)
Definition float_is (x : pyfloat) (v : Q) : Prop :=
  match x with
  | Fin q => q == v
  | NaN => False
  end.

(** The computation returns a finite float equal to [v]. *)
Definition yields (r : result pyfloat) (v : Q) : Prop :=
  match r with
  | inr x => float_is x v
  | inl _ => False
  end.


(** The computation raises an exception. *)
Definition raises {A : Type} (r : result A) : Prop :=
  match r with
  | inl _ => True
  | inr _ => False
  end.

(** The computation returns [nan]. *)
Definition returns_nan (r : result pyfloat) : Prop :=
  match r with
  | inr NaN => True
  | _ => False
  end.

(** The inputs the proportion test is meant for. *)
Definition valid_input (c n : Z) (p0 : Q) : Prop :=
  (0 < n)%Z /\ (0 <= c <= n)%Z /\ 0 < p0 /\ p0 < 1.

(** ** Further cells of [abtest.ipynb] *)

(** The first [k] at or after the start with [P(X <= k) >= q], looking at
    [fuel] candidates; the position after them when none qualifies. *)
Fixpoint ppf_scan (n : nat) (p q : Q) (fuel k : nat) : nat :=
  match fuel with
  | O => k
  | S fuel' =>
      if Qle_bool q (cdf_sum n p k) then k else ppf_scan n p q fuel' (S k)
  end.

(** The quantile of Binomial(n, p) for [0 < q < 1]: the smallest [k] in
    [0..n] whose distribution function reaches [q]. *)
Definition binom_ppf (q : Q) (n : Z) (p : Q) : Z :=
  Z.of_nat (ppf_scan (Z.to_nat n) p q (Z.to_nat n) O).

(** [stats.binom.ppf(q, n=n, p=p)]: [nan] for invalid parameters or [q]
    outside [0, 1]; on valid parameters [-1] (one below the support) at
    [q = 0], the support's upper end [n] at [q = 1] and the quantile for
    [0 < q < 1]. *)
Definition stats_binom_ppf (q : Q) (n : Z) (p : Q) : pyfloat :=
  if binom_argcheck n p then
    if Qeq_bool q 0 then Fin (inject_Z (-1))
    else if Qeq_bool q 1 then Fin (inject_Z n)
    else if Qle_bool 0 q && Qle_bool q 1 then Fin (inject_Z (binom_ppf q n p))
    else NaN
  else NaN.

(** Exceptions of the A/B cell: the division of the two counts can fail
    before the library is reached. *)
Inductive py_exn : Type :=
| ZeroDivisionError
| LibraryError (e : exn).

(** [a / b] on two ints: true division, [ZeroDivisionError] for [b = 0].
    The quotient is taken exactly: neither its rounding to a float nor the
    [OverflowError] of a quotient beyond the float range is represented. *)
Definition py_truediv (a b : Z) : sum py_exn Q :=
  if (b =? 0)%Z then raise ZeroDivisionError else ret (inject_Z a / inject_Z b).

(** A library computation inside a cell. *)
Definition lift_library {A : Type} (r : result A) : sum py_exn A :=
  match r with
  | inl e => inl (LibraryError e)
  | inr x => inr x
  end.

(** The A/B cell: [pa = ca/na; 1-stats.binom.cdf(cb-1, n=nb, p=pa)]. *)
Definition ab_test (na ca nb cb : Z) : sum py_exn pyfloat :=
  rate_a <- py_truediv ca na ;;
  lift_library (pvalue_greater cb nb rate_a).

(** The A/B cell returns a finite float equal to [v]. *)
Definition ab_yields (r : sum py_exn pyfloat) (v : Q) : Prop :=
  match r with
  | inr x => float_is x v
  | inl _ => False
  end.

(** * Properties *)

(** ** Finite sums *)

Section Sums.

Lemma sum_to_ext (m : nat) (f g : nat -> Q) :
  (forall i, (i < m)%nat -> f i == g i) -> sum_to m f == sum_to m g.
Proof.
  induction m as [|m IH]; intros H; simpl.
  - reflexivity.
  - rewrite IH, (H m) by (intros; try apply H; lia). reflexivity.
Qed.

Lemma sum_to_shift (m : nat) (f : nat -> Q) :
  sum_to (S m) f == f O + sum_to m (fun i => f (S i)).
Proof.
  induction m as [|m IH].
  - simpl. ring.
  - change (sum_to (S (S m)) f) with (sum_to (S m) f + f (S m)).
    rewrite IH. simpl. ring.
Qed.

Lemma sum_to_plus (m : nat) (f g : nat -> Q) :
  sum_to m (fun i => f i + g i) == sum_to m f + sum_to m g.
Proof.
  induction m as [|m IH]; simpl.
  - ring.
  - rewrite IH. ring.
Qed.

Lemma sum_to_scale (m : nat) (a : Q) (f : nat -> Q) :
  sum_to m (fun i => a * f i) == a * sum_to m f.
Proof.
  induction m as [|m IH]; simpl.
  - ring.
  - rewrite IH. ring.
Qed.

Lemma sum_to_app (a b : nat) (f : nat -> Q) :
  sum_to (a + b) f == sum_to a f + sum_to b (fun i => f (a + i)%nat).
Proof.
  induction b as [|b IH].
  - rewrite Nat.add_0_r. simpl. ring.
  - rewrite Nat.add_succ_r. simpl. rewrite IH. ring.
Qed.

Lemma sum_to_nonneg (m : nat) (f : nat -> Q) :
  (forall i, 0 <= f i) -> 0 <= sum_to m f.
Proof.
  intros H. induction m as [|m IH]; simpl.
  - apply Qle_refl.
  - specialize (H m). lra.
Qed.

Lemma sum_to_mono (m m' : nat) (f : nat -> Q) :
  (forall i, 0 <= f i) -> (m <= m')%nat -> sum_to m f <= sum_to m' f.
Proof.
  intros H Hle. replace m' with (m + (m' - m))%nat by lia.
  rewrite sum_to_app.
  pose proof (sum_to_nonneg (m' - m) (fun i => f (m + i)%nat) (fun i => H _)).
  lra.
Qed.

Lemma sum_to_zero_tail (m m' : nat) (f : nat -> Q) :
  (forall i, (m <= i)%nat -> f i == 0) -> (m <= m')%nat ->
  sum_to m' f == sum_to m f.
Proof.
  intros H Hle. replace m' with (m + (m' - m))%nat by lia.
  rewrite sum_to_app.
  assert (E : sum_to (m' - m) (fun i => f (m + i)%nat) == 0).
  { induction (m' - m)%nat as [|d IH]; simpl.
    - reflexivity.
    - rewrite IH, H by lia. ring. }
  rewrite E. ring.
Qed.

End Sums.

(** ** Pascal's triangle *)

Section Pascal.

Lemma nth_next_row (row : list Z) (a : Z) (k : nat) :
  nth k (next_row a row) 0%Z = (nth k (a :: row) 0 + nth k row 0)%Z.
Proof.
  revert a k. induction row as [|x r IH]; intros a k.
  - destruct k as [|[|k]]; simpl; lia.
  - destruct k as [|k]; simpl.
    + reflexivity.
    + rewrite IH. reflexivity.
Qed.

Lemma choose_0_r (n : nat) : choose n 0 = 1%Z.
Proof.
  induction n as [|n IH].
  - reflexivity.
  - unfold choose in *. simpl pascal_row. rewrite nth_next_row. simpl nth at 1.
    rewrite IH. reflexivity.
Qed.

Lemma choose_pascal (n k : nat) :
  choose (S n) (S k) = (choose n k + choose n (S k))%Z.
Proof.
  unfold choose. simpl pascal_row. rewrite nth_next_row. reflexivity.
Qed.

Lemma choose_above (n k : nat) : (n < k)%nat -> choose n k = 0%Z.
Proof.
  revert k. induction n as [|n IH]; intros k Hk.
  - destruct k as [|[|k]]; [lia | reflexivity | reflexivity].
  - destruct k as [|k]; [lia|].
    rewrite choose_pascal, !IH by lia. reflexivity.
Qed.

Lemma choose_nonneg (n k : nat) : (0 <= choose n k)%Z.
Proof.
  revert k. induction n as [|n IH]; intros k.
  - destruct k as [|[|k]]; unfold choose; simpl; lia.
  - destruct k as [|k].
    + rewrite choose_0_r. lia.
    + rewrite choose_pascal. pose proof (IH k). pose proof (IH (S k)). lia.
Qed.

End Pascal.

(** ** The binomial masses *)

Section Masses.

Variable p : Q.

Lemma Qpow_nonneg (q : Q) (k : nat) : 0 <= q -> 0 <= Qpow q k.
Proof.
  intros H. induction k as [|k IH]; simpl.
  - discriminate.
  - apply Qmult_le_0_compat; assumption.
Qed.

Lemma pmf_above (n k : nat) : (n < k)%nat -> pmf n p k == 0.
Proof.
  intros H. unfold pmf. rewrite choose_above by exact H.
  change (inject_Z 0) with 0. ring.
Qed.

Lemma pmf_zero_succ (n : nat) : pmf (S n) p 0 == (1 - p) * pmf n p 0.
Proof.
  unfold pmf. rewrite !choose_0_r. rewrite !Nat.sub_0_r. simpl Qpow. ring.
Qed.

(** Pascal's rule, read as conditioning on the last trial. *)
Lemma pmf_step (n k : nat) :
  pmf (S n) p (S k) == p * pmf n p k + (1 - p) * pmf n p (S k).
Proof.
  unfold pmf. rewrite choose_pascal, inject_Z_plus.
  change (S n - S k)%nat with (n - k)%nat.
  destruct (Nat.lt_ge_cases k n) as [Hlt|Hge].
  - replace (n - k)%nat with (S (n - S k)) by lia. simpl Qpow. ring.
  - rewrite (choose_above n (S k)) by lia.
    change (inject_Z 0) with 0. simpl Qpow. ring.
Qed.

(** The masses of Binomial(n, p) add up to one. *)
Lemma pmf_total (n : nat) : sum_to (S n) (pmf n p) == 1.
Proof.
  induction n as [|n IH].
  - simpl sum_to. unfold pmf. rewrite choose_0_r.
    change (inject_Z 1) with 1. simpl Qpow. ring.
  - assert (Hshift : sum_to (S n) (fun i => pmf n p (S i)) == 1 - pmf n p 0).
    { assert (H2 : sum_to (S (S n)) (pmf n p) == 1).
      { change (sum_to (S (S n)) (pmf n p))
          with (sum_to (S n) (pmf n p) + pmf n p (S n)).
        rewrite IH, pmf_above by lia. ring. }
      rewrite sum_to_shift in H2. rewrite <- H2. ring. }
    rewrite sum_to_shift.
    rewrite (sum_to_ext (S n) (fun i => pmf (S n) p (S i))
               (fun i => p * pmf n p i + (1 - p) * pmf n p (S i)))
      by (intros; apply pmf_step).
    rewrite sum_to_plus, !sum_to_scale, IH, Hshift, pmf_zero_succ. ring.
Qed.

(** Lower and upper part of the distribution are complementary:
    [P(X < c) + P(X >= c) = 1]. *)
Lemma head_plus_tail (n c : nat) :
  (c <= S n)%nat -> sum_to c (pmf n p) + tail_sum n p c == 1.
Proof.
  intros H. unfold tail_sum. rewrite <- sum_to_app.
  replace (c + (S n - c))%nat with (S n) by lia. apply pmf_total.
Qed.

Hypothesis p_lo : 0 <= p.
Hypothesis p_hi : p <= 1.

Lemma pmf_nonneg (n k : nat) : 0 <= pmf n p k.
Proof.
  unfold pmf. repeat apply Qmult_le_0_compat.
  - change 0 with (inject_Z 0). rewrite <- Zle_Qle. apply choose_nonneg.
  - apply Qpow_nonneg, p_lo.
  - apply Qpow_nonneg. lra.
Qed.

Lemma cdf_sum_nonneg (n k : nat) : 0 <= cdf_sum n p k.
Proof. apply sum_to_nonneg. intros i. apply pmf_nonneg. Qed.

Lemma cdf_sum_mono (n k k' : nat) :
  (k <= k')%nat -> cdf_sum n p k <= cdf_sum n p k'.
Proof.
  intros H. apply sum_to_mono; [intros i; apply pmf_nonneg | lia].
Qed.

Lemma cdf_sum_le_1 (n k : nat) : cdf_sum n p k <= 1.
Proof.
  unfold cdf_sum. destruct (Nat.le_gt_cases k n) as [Hle|Hgt].
  - rewrite <- (pmf_total n). apply sum_to_mono; [intros i; apply pmf_nonneg | lia].
  - rewrite (sum_to_zero_tail (S n) (S k)); [| intros; apply pmf_above; lia | lia].
    rewrite pmf_total. apply Qle_refl.
Qed.

End Masses.

(** ** The library functions on valid parameters *)

Section Library.

Lemma binom_argcheck_true (n : Z) (p : Q) :
  (0 <= n)%Z -> 0 <= p -> p <= 1 -> binom_argcheck n p = true.
Proof.
  intros Hn H0 H1. unfold binom_argcheck.
  apply Z.leb_le in Hn. apply Qle_bool_iff in H0, H1.
  rewrite Hn, H0, H1. reflexivity.
Qed.

Lemma binom_argcheck_false (n : Z) (p : Q) :
  (n < 0)%Z \/ p < 0 \/ 1 < p -> binom_argcheck n p = false.
Proof.
  intros H. unfold binom_argcheck.
  destruct (0 <=? n)%Z eqn:En; [|reflexivity].
  destruct (Qle_bool 0 p) eqn:E0; [|reflexivity].
  destruct (Qle_bool p 1) eqn:E1; [|reflexivity].
  apply Z.leb_le in En. apply Qle_bool_iff in E0, E1.
  destruct H as [H|[H|H]]; [lia | lra | lra].
Qed.

Lemma binom_cdf_bounds (k n : Z) (p : Q) :
  0 <= p -> p <= 1 -> 0 <= binom_cdf k n p <= 1.
Proof.
  intros H0 H1. unfold binom_cdf.
  destruct (n <=? k)%Z; [lra|].
  destruct (k <? 0)%Z; [lra|].
  split; [apply cdf_sum_nonneg | apply cdf_sum_le_1]; assumption.
Qed.

Lemma binom_cdf_mono (k k' n : Z) (p : Q) :
  0 <= p -> p <= 1 -> (k <= k')%Z -> binom_cdf k n p <= binom_cdf k' n p.
Proof.
  intros H0 H1 Hk.
  pose proof (binom_cdf_bounds k n p H0 H1) as Bk.
  pose proof (binom_cdf_bounds k' n p H0 H1) as Bk'.
  unfold binom_cdf in *.
  destruct (Z.leb_spec n k'); [|destruct (Z.leb_spec n k); [lia|]].
  - apply Bk.
  - destruct (Z.ltb_spec k 0); [apply Bk'|].
    destruct (Z.ltb_spec k' 0); [lia|].
    apply cdf_sum_mono; [assumption | assumption | lia].
Qed.

(** The survival function is the complement of the distribution function. *)
Lemma binom_sf_complement (k n : Z) (p : Q) :
  (0 <= n)%Z -> binom_sf k n p == 1 - binom_cdf k n p.
Proof.
  intros Hn. unfold binom_sf, binom_cdf.
  destruct (Z.ltb_spec k 0), (Z.leb_spec n k); try lia; try ring.
  pose proof (head_plus_tail p (Z.to_nat n) (S (Z.to_nat k))) as Hsplit.
  unfold cdf_sum. rewrite <- Hsplit by lia. ring.
Qed.

(** [1 - CDF(c-1)] is the upper tail [P(X >= c)]. *)
Lemma complement_is_tail (c n : Z) (p : Q) :
  (0 <= c <= n)%Z ->
  1 - binom_cdf (c - 1) n p == tail_sum (Z.to_nat n) p (Z.to_nat c).
Proof.
  intros Hc. pose proof (head_plus_tail p (Z.to_nat n) (Z.to_nat c)) as H.
  unfold binom_cdf.
  destruct (Z.leb_spec n (c - 1)); [lia|].
  destruct (Z.ltb_spec (c - 1) 0).
  - replace c with 0%Z in * by lia. simpl Z.to_nat in *. simpl sum_to in H.
    rewrite <- H by lia. ring.
  - unfold cdf_sum. replace (S (Z.to_nat (c - 1))) with (Z.to_nat c) by lia.
    rewrite <- H by lia. ring.
Qed.

Lemma Qmin_compat (a a' b b' : Q) :
  a == a' -> b == b' -> Qmin a b == Qmin a' b'.
Proof.
  intros Ha Hb.
  destruct (Q.min_spec a b) as [[H E]|[H E]];
    destruct (Q.min_spec a' b') as [[H' E']|[H' E']];
    rewrite E, E'; lra.
Qed.

End Library.

(** ** The p-value for the alternative "greater" *)

Section Greater.

Lemma pvalue_greater_valid (c n : Z) (p : Q) :
  (0 <= n)%Z -> 0 <= p -> p <= 1 ->
  pvalue_greater c n p = inr (Fin (1 - binom_cdf (c - 1) n p)).
Proof.
  intros Hn H0 H1. unfold pvalue_greater, stats_binom_cdf.
  rewrite binom_argcheck_true by assumption. reflexivity.
Qed.

Lemma binomtest_pvalue_valid (c n : Z) (p : Q) :
  (0 < n)%Z -> (0 <= c <= n)%Z -> 0 <= p -> p <= 1 ->
  binomtest_pvalue c n p = inr (Fin (binom_sf (c - 1) n p)).
Proof.
  intros Hn Hc H0 H1. unfold binomtest_pvalue, stats_binomtest_greater, stats_binom_sf.
  destruct (Z.ltb_spec c 0); [lia|].
  destruct (Z.ltb_spec n 1); [lia|].
  destruct (Z.ltb_spec n c); [lia|].
  rewrite binom_argcheck_true by (assumption || lia).
  apply Qle_bool_iff in H0, H1. rewrite H0, H1. reflexivity.
Qed.

End Greater.

(** C1. For every valid input (n > 0, 0 <= c <= n, 0 < p0 < 1) the notebook's
    p-value for the alternative "greater", [1 - CDF(c-1; n, p0)], is the
    probability [P(X >= c)] of X ~ Binomial(n, p0): the sum of the masses at
    c, c+1, ..., n. *)
Theorem pvalue_greater_is_upper_tail (c n : Z) (p0 : Q) :
  valid_input c n p0 ->
  yields (pvalue_greater c n p0) (1 - binom_cdf (c - 1) n p0) /\
  yields (pvalue_greater c n p0) (tail_sum (Z.to_nat n) p0 (Z.to_nat c)).
Proof.
  intros (Hn & Hc & H0 & H1).
  rewrite pvalue_greater_valid by (lia || lra). simpl. split.
  - reflexivity.
  - apply complement_is_tail. exact Hc.
Qed.

Lemma pvalue_greater_is_upper_tail_witness :
  valid_input 10 50 (1 # 10) /\
  yields (pvalue_greater 10 50 (1 # 10)) (tail_sum 50 (1 # 10) 10).
Proof.
  assert (V : valid_input 10 50 (1 # 10)).
  { unfold valid_input. repeat split; try lia; reflexivity. }
  split; [exact V|].
  exact (proj2 (pvalue_greater_is_upper_tail 10 50 (1 # 10) V)).
Defined.

(** C5. For fixed n > 0 and 0 < p0 < 1 the "greater" p-value is non-increasing
    in c: for 0 <= c1 <= c2 <= n the p-value at c2 is at most the one at c1. *)
Theorem pvalue_greater_nonincreasing (c1 c2 n : Z) (p0 : Q) :
  (0 < n)%Z -> 0 < p0 -> p0 < 1 -> (0 <= c1)%Z -> (c1 <= c2)%Z -> (c2 <= n)%Z ->
  exists v1 v2,
    yields (pvalue_greater c1 n p0) v1 /\
    yields (pvalue_greater c2 n p0) v2 /\
    v2 <= v1.
Proof.
  intros Hn H0 H1 Hc1 Hc12 Hc2.
  exists (1 - binom_cdf (c1 - 1) n p0), (1 - binom_cdf (c2 - 1) n p0).
  rewrite !pvalue_greater_valid by (lia || lra). simpl.
  repeat split; try reflexivity.
  pose proof (binom_cdf_mono (c1 - 1) (c2 - 1) n p0) as M.
  assert (binom_cdf (c1 - 1) n p0 <= binom_cdf (c2 - 1) n p0) by (apply M; lra || lia).
  lra.
Qed.

Lemma pvalue_greater_nonincreasing_witness :
  exists v1 v2,
    yields (pvalue_greater 3 10 (1 # 2)) v1 /\
    yields (pvalue_greater 7 10 (1 # 2)) v2 /\
    v2 <= v1.
Proof.
  apply (pvalue_greater_nonincreasing 3 7 10 (1 # 2)); try lia; reflexivity.
Defined.

(** C7. Observing the minimum is never surprisingly high: for c = 0 the
    "greater" p-value [P(X >= 0)] is exactly 1, for every n > 0 and
    0 < p0 < 1; in particular for n = 10 and p0 = 0.5. *)
Theorem pvalue_greater_at_zero (n : Z) (p0 : Q) :
  (0 < n)%Z -> 0 < p0 -> p0 < 1 ->
  yields (pvalue_greater 0 n p0) 1.
Proof.
  intros Hn H0 H1. rewrite pvalue_greater_valid by (lia || lra). simpl.
  unfold binom_cdf.
  destruct (Z.leb_spec n (-1)); [lia|]. simpl. ring.
Qed.

Lemma pvalue_greater_at_zero_witness :
  yields (pvalue_greater 0 10 (1 # 2)) 1.
Proof.
  apply (pvalue_greater_at_zero 10 (1 # 2)); [lia | reflexivity | reflexivity].
Defined.

(** C8. For n = 50, c = 10, p0 = 0.1 the "greater" p-value is the exact
    binomial tail [1 - CDF(9; 50, 0.1)]; it rounds to 0.0245 and lies within
    1e-15 of 0.024537935704591396. *)
Theorem pvalue_greater_website_example :
  exists v,
    yields (pvalue_greater 10 50 (1 # 10)) v /\
    v == 1 - binom_cdf 9 50 (1 # 10) /\
    Qabs (v - 0.0245) < 0.00005 /\
    Qabs (v - 0.024537935704591396) < 0.000000000000001.
Proof.
  exists (Qred (1 - binom_cdf 9 50 (1 # 10))).
  split; [|split; [|split]].
  - vm_compute. reflexivity.
  - apply Qred_correct.
  - vm_compute. reflexivity.
  - vm_compute. reflexivity.
Qed.

(** ** Evaluating the distribution function at a rate [a/d] *)

Section Scaled.

Lemma Qpow_compat (q q' : Q) (k : nat) : q == q' -> Qpow q k == Qpow q' k.
Proof.
  intros E. induction k as [|k IH]; simpl.
  - reflexivity.
  - rewrite IH, E. reflexivity.
Qed.







End Scaled.




(** ** The three alternatives *)

Section Alternatives.

Lemma stats_binom_cdf_valid (k n : Z) (p : Q) :
  (0 <= n)%Z -> 0 <= p -> p <= 1 -> stats_binom_cdf k n p = Fin (binom_cdf k n p).
Proof.
  intros. unfold stats_binom_cdf. rewrite binom_argcheck_true by assumption.
  reflexivity.
Qed.

Lemma stats_binom_sf_valid (k n : Z) (p : Q) :
  (0 <= n)%Z -> 0 <= p -> p <= 1 -> stats_binom_sf k n p = Fin (binom_sf k n p).
Proof.
  intros. unfold stats_binom_sf. rewrite binom_argcheck_true by assumption.
  reflexivity.
Qed.

Lemma pvalue_less_valid (c n : Z) (p : Q) :
  (0 <= n)%Z -> 0 <= p -> p <= 1 ->
  pvalue_less c n p = inr (Fin (binom_cdf c n p)).
Proof.
  intros. unfold pvalue_less. rewrite stats_binom_cdf_valid by assumption.
  reflexivity.
Qed.

Lemma pvalue_two_sided_valid (c n : Z) (p : Q) :
  (0 <= n)%Z -> 0 <= p -> p <= 1 ->
  pvalue_two_sided c n p =
  inr (Fin (Qmin 1 (2 * Qmin (binom_sf (c - 1) n p) (binom_cdf c n p)))).
Proof.
  intros. unfold pvalue_two_sided.
  rewrite stats_binom_cdf_valid, stats_binom_sf_valid by assumption.
  reflexivity.
Qed.

Lemma capped_double_min_bounds (a b : Q) :
  0 <= a -> 0 <= b -> 0 <= Qmin 1 (2 * Qmin a b) <= 1.
Proof.
  intros Ha Hb.
  destruct (Q.min_spec a b) as [[H E]|[H E]];
    destruct (Q.min_spec 1 (2 * Qmin a b)) as [[H' E']|[H' E']];
    rewrite E', ?E in *; lra.
Qed.

End Alternatives.

(** C2. For every valid input the two-sided p-value is twice the smaller of
    the "greater" and the "less" p-value, capped at 1. *)
Theorem two_sided_is_capped_double_min (c n : Z) (p0 : Q) :
  valid_input c n p0 ->
  exists g l,
    yields (test_proportion c n p0 greater) g /\
    yields (test_proportion c n p0 less) l /\
    yields (test_proportion c n p0 two_sided) (Qmin 1 (2 * Qmin g l)).
Proof.
  intros (Hn & Hc & H0 & H1).
  exists (1 - binom_cdf (c - 1) n p0), (binom_cdf c n p0).
  unfold test_proportion.
  rewrite pvalue_greater_valid, pvalue_less_valid, pvalue_two_sided_valid
    by (lia || lra).
  simpl. repeat split; try reflexivity.
  apply Qmin_compat; [reflexivity|].
  assert (E : Qmin (binom_sf (c - 1) n p0) (binom_cdf c n p0) ==
              Qmin (1 - binom_cdf (c - 1) n p0) (binom_cdf c n p0)).
  { apply Qmin_compat; [apply binom_sf_complement; lia | reflexivity]. }
  rewrite E. reflexivity.
Qed.

Lemma two_sided_is_capped_double_min_witness :
  valid_input 5 10 (1 # 2) /\
  exists g l,
    yields (test_proportion 5 10 (1 # 2) greater) g /\
    yields (test_proportion 5 10 (1 # 2) less) l /\
    yields (test_proportion 5 10 (1 # 2) two_sided) (Qmin 1 (2 * Qmin g l)).
Proof.
  assert (V : valid_input 5 10 (1 # 2)).
  { unfold valid_input. repeat split; try lia; reflexivity. }
  split; [exact V|].
  exact (two_sided_is_capped_double_min 5 10 (1 # 2) V).
Defined.

(** C3. For every valid input and each of the three alternatives the test
    returns a p-value, and it lies in the closed interval [0, 1]. *)
Theorem test_proportion_in_unit_interval (c n : Z) (p0 : Q) (alt : alternative) :
  valid_input c n p0 ->
  exists v, yields (test_proportion c n p0 alt) v /\ 0 <= v /\ v <= 1.
Proof.
  intros (Hn & Hc & H0 & H1).
  assert (P0 : 0 <= p0) by lra. assert (P1 : p0 <= 1) by lra.
  pose proof (binom_cdf_bounds (c - 1) n p0 P0 P1) as B1.
  pose proof (binom_cdf_bounds c n p0 P0 P1) as B2.
  destruct alt; unfold test_proportion.
  - exists (1 - binom_cdf (c - 1) n p0).
    rewrite pvalue_greater_valid by (lia || lra). simpl.
    split; [reflexivity | lra].
  - exists (binom_cdf c n p0).
    rewrite pvalue_less_valid by (lia || lra). simpl.
    split; [reflexivity | lra].
  - exists (Qmin 1 (2 * Qmin (binom_sf (c - 1) n p0) (binom_cdf c n p0))).
    rewrite pvalue_two_sided_valid by (lia || lra). simpl.
    split; [reflexivity|].
    apply capped_double_min_bounds; [|lra].
    rewrite binom_sf_complement by lia. lra.
Qed.

Lemma test_proportion_in_unit_interval_witness :
  valid_input 5 10 (1 # 2) /\
  exists v, yields (test_proportion 5 10 (1 # 2) two_sided) v /\ 0 <= v /\ v <= 1.
Proof.
  assert (V : valid_input 5 10 (1 # 2)).
  { unfold valid_input. repeat split; try lia; reflexivity. }
  split; [exact V|].
  exact (test_proportion_in_unit_interval 5 10 (1 # 2) two_sided V).
Defined.

(** ** The two-tailed p-values of the normal test *)

Section TwoTailed.

Variable cdf : Q -> Q.

Lemma p_values_pointwise (observations : list Q) :
  p_values cdf observations = map (two_tailed_p cdf) observations.
Proof.
  unfold p_values, np_scale, np_minimum, np_rsub.
  induction observations as [|x xs IH]; simpl.
  - reflexivity.
  - rewrite IH. reflexivity.
Qed.

Lemma min_with_complement_le_half (x : Q) : Qmin (cdf x) (1 - cdf x) <= 1 # 2.
Proof.
  destruct (Q.min_spec (cdf x) (1 - cdf x)) as [[H E]|[H E]]; rewrite E; lra.
Qed.

Lemma two_tailed_p_bounds (x : Q) :
  0 <= cdf x <= 1 -> 0 <= two_tailed_p cdf x <= 1.
Proof.
  intros H. unfold two_tailed_p.
  destruct (Q.min_spec (cdf x) (1 - cdf x)) as [[H' E]|[H' E]]; rewrite E; lra.
Qed.

(** The uncapped formula of the notebook is already the capped double
    minimum of the two one-tailed p-values [1 - F(x)] and [F(x)]. *)
Lemma two_tailed_p_needs_no_cap (x : Q) :
  two_tailed_p cdf x == Qmin 1 (2 * Qmin (one_tailed_p cdf x) (cdf x)).
Proof.
  unfold two_tailed_p, one_tailed_p.
  destruct (Q.min_spec (cdf x) (1 - cdf x)) as [[H E]|[H E]];
    destruct (Q.min_spec (1 - cdf x) (cdf x)) as [[H1 E1]|[H1 E1]];
    destruct (Q.min_spec 1 (2 * Qmin (1 - cdf x) (cdf x))) as [[H2 E2]|[H2 E2]];
    rewrite E2, ?E, ?E1 in *; lra.
Qed.

(** The doubled one-tailed p-value of the cell is a probability on the side
    its comment assigns to it. *)
Lemma two_sided_upper_p_bounds (xbar : Q) :
  1 # 2 <= cdf xbar <= 1 -> 0 <= two_sided_upper_p cdf xbar <= 1.
Proof. unfold two_sided_upper_p. lra. Qed.

Lemma two_sided_lower_p_bounds (xbar : Q) :
  0 <= cdf xbar <= 1 # 2 -> 0 <= two_sided_lower_p cdf xbar <= 1.
Proof. unfold two_sided_lower_p. lra. Qed.

End TwoTailed.

(** C10. For every distribution function F with values in [0, 1] and every
    array of observations, each two-tailed p-value [2*min(F(x), 1 - F(x))]
    lies in [0, 1] although the notebook applies no cap, because
    [min(F(x), 1 - F(x)) <= 1/2]. *)
Theorem p_values_in_unit_interval (cdf : Q -> Q) (observations : list Q) :
  (forall x, 0 <= cdf x <= 1) ->
  Forall (fun pv => 0 <= pv <= 1) (p_values cdf observations) /\
  (forall x, Qmin (cdf x) (1 - cdf x) <= 1 # 2).
Proof.
  intros H. split.
  - rewrite p_values_pointwise. apply Forall_map, Forall_forall.
    intros x _. apply two_tailed_p_bounds, H.
  - intros x. apply min_with_complement_le_half.
Qed.

Lemma p_values_in_unit_interval_witness :
  Forall (fun pv => 0 <= pv <= 1)
    (p_values (fun x => binom_cdf (Qfloor x) 10 (1 # 2)) [3; 11 # 2; 12]).
Proof.
  refine (proj1 (p_values_in_unit_interval
                   (fun x => binom_cdf (Qfloor x) 10 (1 # 2)) [3; 11 # 2; 12] _)).
  intros x. apply binom_cdf_bounds; [discriminate | discriminate].
Defined.

(** ** Inputs out of range *)

Section OutOfRange.

Lemma pvalue_greater_never_raises (c n : Z) (p0 : Q) :
  ~ raises (pvalue_greater c n p0).
Proof. unfold pvalue_greater. simpl. intros H. exact H. Qed.

Lemma pvalue_greater_nan (c n : Z) (p0 : Q) :
  (n < 0)%Z \/ p0 < 0 \/ 1 < p0 -> returns_nan (pvalue_greater c n p0).
Proof.
  intros H. unfold pvalue_greater, stats_binom_cdf.
  rewrite binom_argcheck_false by exact H. exact I.
Qed.

Lemma unit_interval_check (p : Q) :
  negb (Qle_bool 0 p && Qle_bool p 1) = true <-> p < 0 \/ 1 < p.
Proof.
  destruct (Qle_bool 0 p) eqn:E0; destruct (Qle_bool p 1) eqn:E1; simpl;
    try (apply Qle_bool_iff in E0); try (apply Qle_bool_iff in E1);
    try (apply not_true_iff_false in E0; rewrite Qle_bool_iff in E0);
    try (apply not_true_iff_false in E1; rewrite Qle_bool_iff in E1);
    split; intros H; try discriminate; try reflexivity.
  - lra.
  - right. lra.
  - left. lra.
  - left. lra.
Qed.

(** The library test rejects exactly the inputs out of range. *)
Lemma binomtest_raises_iff (c n : Z) (p0 : Q) :
  raises (binomtest_pvalue c n p0) <->
  (n <= 0)%Z \/ (c < 0)%Z \/ (n < c)%Z \/ p0 < 0 \/ 1 < p0.
Proof.
  unfold binomtest_pvalue, stats_binomtest_greater.
  destruct (Z.ltb_spec c 0); [simpl; intuition lia|].
  destruct (Z.ltb_spec n 1); [simpl; intuition lia|].
  destruct (Z.ltb_spec n c); [simpl; intuition lia|].
  pose proof (unit_interval_check p0) as U.
  destruct (negb (Qle_bool 0 p0 && Qle_bool p0 1)); simpl.
  - split; [intros _|intros _; exact I].
    right; right; right. apply U. reflexivity.
  - split; [contradiction|].
    intros [Hc|[Hc|[Hc|Hc]]]; try lia.
    apply U in Hc. discriminate.
Qed.

End OutOfRange.

(** C4 (as the code has it).  The notebook's proportion test
    [1 - stats.binom.cdf(c-1, n, p0)] does no range check and never raises:
    whenever n >= 0 and 0 <= p0 <= 1 it returns a number in [0, 1], also for
    n = 0 and for c outside [0, n] (1 for c <= 0, 0 for c > n), and for n < 0
    or p0 outside [0, 1] it returns nan.  Only the library call
    [stats.binomtest] raises, and it does so exactly when n <= 0, c < 0,
    c > n or p0 is outside [0, 1]. *)
Theorem proportion_test_range_handling (c n : Z) (p0 : Q) :
  ~ raises (pvalue_greater c n p0) /\
  ((0 <= n)%Z -> 0 <= p0 <= 1 ->
   exists v, yields (pvalue_greater c n p0) v /\ 0 <= v <= 1 /\
             ((c <= 0)%Z -> v == 1) /\ ((n < c)%Z -> v == 0)) /\
  ((n < 0)%Z \/ p0 < 0 \/ 1 < p0 -> returns_nan (pvalue_greater c n p0)) /\
  (raises (binomtest_pvalue c n p0) <->
   (n <= 0)%Z \/ (c < 0)%Z \/ (n < c)%Z \/ p0 < 0 \/ 1 < p0).
Proof.
  split; [apply pvalue_greater_never_raises|].
  split; [|split; [apply pvalue_greater_nan | apply binomtest_raises_iff]].
  intros Hn [H0 H1]. exists (1 - binom_cdf (c - 1) n p0).
  rewrite pvalue_greater_valid by assumption. simpl.
  pose proof (binom_cdf_bounds (c - 1) n p0 H0 H1) as B.
  split; [reflexivity|]. split; [lra|]. unfold binom_cdf. split; intros Hc.
  - destruct (Z.leb_spec n (c - 1)); [lia|].
    destruct (Z.ltb_spec (c - 1) 0); [ring | lia].
  - destruct (Z.leb_spec n (c - 1)); [ring | lia].
Qed.

Lemma proportion_test_range_handling_witness :
  exists v, yields (pvalue_greater 11 10 (1 # 2)) v /\ 0 <= v <= 1 /\
            ((11 <= 0)%Z -> v == 1) /\ ((10 < 11)%Z -> v == 0).
Proof.
  refine (proj1 (proj2 (proportion_test_range_handling 11 10 (1 # 2))) _ _).
  - lia.
  - split; discriminate.
Defined.

(** C4, counterexample.  On the specification's own invalid inputs the
    notebook's test raises nothing: n = 0 gives 1, c = n + 1 gives 0 and
    p0 = 1.5 gives nan. *)
Lemma out_of_range_inputs_do_not_raise :
  (~ raises (pvalue_greater 0 0 (1 # 2)) /\
   yields (pvalue_greater 0 0 (1 # 2)) 1) /\
  ((10 < 11)%Z /\ ~ raises (pvalue_greater 11 10 (1 # 2)) /\
   yields (pvalue_greater 11 10 (1 # 2)) 0) /\
  (1 < 3 # 2 /\ ~ raises (pvalue_greater 5 10 (3 # 2)) /\
   returns_nan (pvalue_greater 5 10 (3 # 2))).
Proof.
  repeat split; try (intros H; exact H); try lia.
Qed.


(** ** More on the distribution function *)

Section Distribution.

Lemma Qmult_le_left (c a b : Q) : 0 <= c -> a <= b -> c * a <= c * b.
Proof.
  intros Hc Hab. rewrite (Qmult_comm c a), (Qmult_comm c b).
  apply Qmult_le_compat_r; assumption.
Qed.


(** With no trial the only outcome is 0. *)
Lemma cdf_sum_no_trial (p : Q) (k : nat) : cdf_sum O p k == 1.
Proof.
  unfold cdf_sum.
  rewrite (sum_to_zero_tail 1 (S k)); [| intros; apply pmf_above; lia | lia].
  apply (pmf_total p O).
Qed.

Lemma cdf_sum_zero_succ (n : nat) (p : Q) :
  cdf_sum (S n) p O == (1 - p) * cdf_sum n p O.
Proof.
  unfold cdf_sum. simpl sum_to. rewrite pmf_zero_succ. ring.
Qed.

(** Conditioning on the last trial. *)
Lemma cdf_sum_step (n : nat) (p : Q) (k : nat) :
  cdf_sum (S n) p (S k) == p * cdf_sum n p k + (1 - p) * cdf_sum n p (S k).
Proof.
  unfold cdf_sum.
  rewrite (sum_to_shift (S k) (pmf (S n) p)).
  rewrite (sum_to_shift (S k) (pmf n p)).
  rewrite (sum_to_ext (S k) (fun i => pmf (S n) p (S i))
             (fun i => p * pmf n p i + (1 - p) * pmf n p (S i)))
    by (intros; apply pmf_step).
  rewrite sum_to_plus, !sum_to_scale, pmf_zero_succ. ring.
Qed.

(** One more trial can only lower [P(X <= k)]. *)
Lemma cdf_sum_more_trials (n : nat) (p : Q) (k : nat) :
  0 <= p -> p <= 1 -> cdf_sum (S n) p k <= cdf_sum n p k.
Proof.
  intros H0 H1.
  pose proof (cdf_sum_nonneg p H0 H1 n) as N.
  destruct k as [|k].
  - rewrite cdf_sum_zero_succ. specialize (N O).
    assert (p * cdf_sum n p O >= 0) by (apply Qmult_le_0_compat; assumption).
    lra.
  - rewrite cdf_sum_step.
    pose proof (cdf_sum_mono p H0 H1 n k (S k) ltac:(lia)) as M.
    assert (0 <= p * (cdf_sum n p (S k) - cdf_sum n p k))
      by (apply Qmult_le_0_compat; lra).
    lra.
Qed.

Lemma cdf_sum_trials (n d : nat) (p : Q) (k : nat) :
  0 <= p -> p <= 1 -> cdf_sum (n + d) p k <= cdf_sum n p k.
Proof.
  intros H0 H1. induction d as [|d IH].
  - rewrite Nat.add_0_r. apply Qle_refl.
  - rewrite Nat.add_succ_r.
    apply Qle_trans with (cdf_sum (n + d) p k); [|exact IH].
    apply cdf_sum_more_trials; assumption.
Qed.

(** A larger success rate can only lower [P(X <= k)]. *)
Lemma cdf_sum_rate (n : nat) (p p' : Q) (k : nat) :
  0 <= p -> p <= p' -> p' <= 1 -> cdf_sum n p' k <= cdf_sum n p k.
Proof.
  intros H0 Hpp H1. revert k. induction n as [|n IH]; intros k.
  - rewrite !cdf_sum_no_trial. apply Qle_refl.
  - assert (P0 : 0 <= p') by lra. assert (P1 : p <= 1) by lra.
    destruct k as [|k].
    + rewrite !cdf_sum_zero_succ.
      pose proof (IH O) as I. pose proof (cdf_sum_nonneg p H0 P1 n O) as N.
      apply Qle_trans with ((1 - p') * cdf_sum n p O).
      * apply Qmult_le_left; [lra | exact I].
      * apply Qmult_le_compat_r; [lra | exact N].
    + rewrite !cdf_sum_step.
      pose proof (IH k) as Ik. pose proof (IH (S k)) as ISk.
      pose proof (cdf_sum_mono p H0 P1 n k (S k) ltac:(lia)) as M.
      assert (A1 : p' * cdf_sum n p' k <= p' * cdf_sum n p k)
        by (apply Qmult_le_left; assumption).
      assert (A2 : (1 - p') * cdf_sum n p' (S k) <= (1 - p') * cdf_sum n p (S k))
        by (apply Qmult_le_left; [lra | assumption]).
      assert (A3 : 0 <= (p' - p) * (cdf_sum n p (S k) - cdf_sum n p k))
        by (apply Qmult_le_0_compat; lra).
      lra.
Qed.

End Distribution.

(** ** How the "greater" p-value moves with its inputs *)

Section Movement.

Lemma binom_cdf_rate (k n : Z) (p p' : Q) :
  0 <= p -> p <= p' -> p' <= 1 -> binom_cdf k n p' <= binom_cdf k n p.
Proof.
  intros H0 Hpp H1. unfold binom_cdf.
  destruct (n <=? k)%Z; [apply Qle_refl|].
  destruct (k <? 0)%Z; [apply Qle_refl|].
  apply cdf_sum_rate; assumption.
Qed.

Lemma binom_cdf_trials (k n n' : Z) (p : Q) :
  0 <= p -> p <= 1 -> (0 <= n)%Z -> (n <= n')%Z ->
  binom_cdf k n' p <= binom_cdf k n p.
Proof.
  intros H0 H1 Hn Hnn.
  pose proof (binom_cdf_bounds k n' p H0 H1) as B.
  unfold binom_cdf in *.
  destruct (Z.leb_spec n' k).
  - destruct (Z.leb_spec n k); [apply Qle_refl | lia].
  - destruct (Z.leb_spec n k); [apply B|].
    destruct (Z.ltb_spec k 0); [apply Qle_refl|].
    replace (Z.to_nat n') with (Z.to_nat n + (Z.to_nat n' - Z.to_nat n))%nat by lia.
    apply cdf_sum_trials; assumption.
Qed.

End Movement.

(** X2. A higher baseline rate makes the same observation less surprising:
    for n >= 0 and 0 <= p <= p' <= 1 the "greater" p-value under p' is at
    least the one under p, for every count c. *)
Theorem pvalue_greater_grows_with_rate (c n : Z) (p p' : Q) :
  (0 <= n)%Z -> 0 <= p -> p <= p' -> p' <= 1 ->
  exists v v',
    yields (pvalue_greater c n p) v /\
    yields (pvalue_greater c n p') v' /\
    v <= v'.
Proof.
  intros Hn H0 Hpp H1.
  exists (1 - binom_cdf (c - 1) n p), (1 - binom_cdf (c - 1) n p').
  rewrite !pvalue_greater_valid by (lia || lra). simpl.
  repeat split; try reflexivity.
  pose proof (binom_cdf_rate (c - 1) n p p' H0 Hpp H1). lra.
Qed.

Lemma pvalue_greater_grows_with_rate_witness :
  exists v v',
    yields (pvalue_greater 30 100 (1 # 5)) v /\
    yields (pvalue_greater 30 100 (1 # 4)) v' /\
    v <= v'.
Proof.
  apply (pvalue_greater_grows_with_rate 30 100 (1 # 5) (1 # 4));
    try lia; discriminate.
Defined.

(** X3. More trials with the same count make it less surprising: for
    0 <= n <= n' and 0 <= p0 <= 1 the "greater" p-value of c successes in n'
    trials is at least that of c successes in n trials. *)
Theorem pvalue_greater_grows_with_trials (c n n' : Z) (p0 : Q) :
  (0 <= n)%Z -> (n <= n')%Z -> 0 <= p0 -> p0 <= 1 ->
  exists v v',
    yields (pvalue_greater c n p0) v /\
    yields (pvalue_greater c n' p0) v' /\
    v <= v'.
Proof.
  intros Hn Hnn H0 H1.
  exists (1 - binom_cdf (c - 1) n p0), (1 - binom_cdf (c - 1) n' p0).
  rewrite !pvalue_greater_valid by (lia || lra). simpl.
  repeat split; try reflexivity.
  pose proof (binom_cdf_trials (c - 1) n n' p0 H0 H1 Hn Hnn). lra.
Qed.

Lemma pvalue_greater_grows_with_trials_witness :
  exists v v',
    yields (pvalue_greater 10 50 (1 # 10)) v /\
    yields (pvalue_greater 10 60 (1 # 10)) v' /\
    v <= v'.
Proof.
  apply (pvalue_greater_grows_with_trials 10 50 60 (1 # 10));
    try lia; discriminate.
Defined.

(** ** The quantile function *)

Section Quantile.

Variables (n : nat) (p q : Q).

Lemma ppf_scan_spec (fuel k0 : nat) :
  (k0 <= ppf_scan n p q fuel k0 <= k0 + fuel)%nat /\
  ((ppf_scan n p q fuel k0 < k0 + fuel)%nat ->
   q <= cdf_sum n p (ppf_scan n p q fuel k0)) /\
  (forall j, (k0 <= j < ppf_scan n p q fuel k0)%nat -> cdf_sum n p j < q).
Proof.
  revert k0. induction fuel as [|fuel IH]; intros k0; simpl.
  - repeat split; try lia.
  - destruct (Qle_bool q (cdf_sum n p k0)) eqn:E.
    + apply Qle_bool_iff in E. repeat split; try lia. intros _. exact E.
    + destruct (IH (S k0)) as (R & Hit & Below).
      repeat split; try lia.
      * intros H. apply Hit. lia.
      * intros j Hj. destruct (Nat.eq_dec j k0) as [->|Hne].
        -- apply Qnot_le_lt. intros C. apply Qle_bool_iff in C.
           rewrite C in E. discriminate.
        -- apply Below. lia.
Qed.

End Quantile.

Section QuantileOnZ.

Variables (n : Z) (p q : Q).
Hypothesis n_nonneg : (0 <= n)%Z.
Hypothesis p_lo : 0 <= p.
Hypothesis p_hi : p <= 1.
Hypothesis q_lo : 0 < q.
Hypothesis q_hi : q < 1.

Lemma stats_binom_ppf_valid :
  stats_binom_ppf q n p = Fin (inject_Z (binom_ppf q n p)).
Proof.
  unfold stats_binom_ppf.
  rewrite binom_argcheck_true by assumption.
  destruct (Qeq_bool q 0) eqn:E0; [apply Qeq_bool_iff in E0; lra|].
  destruct (Qeq_bool q 1) eqn:E1; [apply Qeq_bool_iff in E1; lra|].
  assert (L0 : Qle_bool 0 q = true) by (apply Qle_bool_iff; lra).
  assert (L1 : Qle_bool q 1 = true) by (apply Qle_bool_iff; lra).
  rewrite L0, L1. reflexivity.
Qed.

Lemma binom_ppf_range : (0 <= binom_ppf q n p <= n)%Z.
Proof.
  unfold binom_ppf.
  destruct (ppf_scan_spec (Z.to_nat n) p q (Z.to_nat n) O) as (R & _ & _). lia.
Qed.

Lemma binom_ppf_reaches : q <= binom_cdf (binom_ppf q n p) n p.
Proof.
  pose proof binom_ppf_range as R. unfold binom_ppf in *.
  destruct (ppf_scan_spec (Z.to_nat n) p q (Z.to_nat n) O) as (_ & Hit & _).
  unfold binom_cdf.
  set (r := ppf_scan (Z.to_nat n) p q (Z.to_nat n) O) in *.
  destruct (Z.leb_spec n (Z.of_nat r)); [lra|].
  destruct (Z.ltb_spec (Z.of_nat r) 0); [lia|].
  rewrite Nat2Z.id. apply Hit. lia.
Qed.

Lemma binom_ppf_least (j : Z) :
  (j < binom_ppf q n p)%Z -> binom_cdf j n p < q.
Proof.
  pose proof binom_ppf_range as R. unfold binom_ppf in *.
  destruct (ppf_scan_spec (Z.to_nat n) p q (Z.to_nat n) O) as (_ & _ & Below).
  set (r := ppf_scan (Z.to_nat n) p q (Z.to_nat n) O) in *.
  intros Hj. unfold binom_cdf.
  destruct (Z.leb_spec n j); [lia|].
  destruct (Z.ltb_spec j 0); [exact q_lo|].
  apply Below. lia.
Qed.

(** The quantile is at most [k] exactly when the distribution function at
    [k] has reached [q]. *)
Lemma binom_ppf_le_iff (k : Z) :
  (binom_ppf q n p <= k)%Z <-> q <= binom_cdf k n p.
Proof.
  split.
  - intros H. apply Qle_trans with (binom_cdf (binom_ppf q n p) n p).
    + apply binom_ppf_reaches.
    + apply binom_cdf_mono; assumption.
  - intros H. destruct (Z.le_gt_cases (binom_ppf q n p) k) as [L|G]; [exact L|].
    pose proof (binom_ppf_least k G). lra.
Qed.

End QuantileOnZ.

(** X5. Planning for the quantile misses with probability at most 1 - q:
    with k = ppf(q), the probability of at least k + 1 conversions, computed
    as in the notebook by [1 - stats.binom.cdf((k+1)-1, n, p)], is at
    most 1 - q. *)
Theorem more_than_quantile_is_rare (q : Q) (n : Z) (p : Q) :
  (0 <= n)%Z -> 0 <= p -> p <= 1 -> 0 < q -> q < 1 ->
  exists k v,
    stats_binom_ppf q n p = Fin (inject_Z k) /\
    yields (pvalue_greater (k + 1) n p) v /\
    v <= 1 - q.
Proof.
  intros Hn H0 H1 Hq0 Hq1.
  exists (binom_ppf q n p), (1 - binom_cdf (binom_ppf q n p + 1 - 1) n p).
  split; [apply stats_binom_ppf_valid; assumption|].
  rewrite pvalue_greater_valid by assumption. simpl.
  split; [reflexivity|].
  rewrite Z.add_simpl_r.
  pose proof (binom_ppf_reaches n p q Hn). lra.
Qed.

Lemma more_than_quantile_is_rare_witness :
  exists k v,
    stats_binom_ppf (99 # 100) 40 (1 # 10) = Fin (inject_Z k) /\
    yields (pvalue_greater (k + 1) 40 (1 # 10)) v /\
    v <= 1 - (99 # 100).
Proof.
  apply (more_than_quantile_is_rare (99 # 100) 40 (1 # 10));
    try lia; try discriminate; reflexivity.
Defined.

(** X6. Asking for more certainty never lowers the quantile: for
    0 < q <= q' < 1 (and valid n, p) ppf(q) <= ppf(q'). *)
Theorem stats_binom_ppf_monotone (q q' : Q) (n : Z) (p : Q) :
  (0 <= n)%Z -> 0 <= p -> p <= 1 -> 0 < q -> q <= q' -> q' < 1 ->
  exists k k',
    stats_binom_ppf q n p = Fin (inject_Z k) /\
    stats_binom_ppf q' n p = Fin (inject_Z k') /\
    (k <= k')%Z.
Proof.
  intros Hn H0 H1 Hq0 Hqq Hq1.
  exists (binom_ppf q n p), (binom_ppf q' n p).
  split; [apply stats_binom_ppf_valid; assumption || lra|].
  split; [apply stats_binom_ppf_valid; assumption || lra|].
  apply binom_ppf_le_iff; try assumption; try lra.
  pose proof (binom_ppf_reaches n p q' Hn). lra.
Qed.

Lemma stats_binom_ppf_monotone_witness :
  exists k k',
    stats_binom_ppf (1 # 2) 40 (1 # 10) = Fin (inject_Z k) /\
    stats_binom_ppf (99 # 100) 40 (1 # 10) = Fin (inject_Z k') /\
    (k <= k')%Z.
Proof.
  apply (stats_binom_ppf_monotone (1 # 2) (99 # 100) 40 (1 # 10));
    try lia; try discriminate; reflexivity.
Defined.

(** ** The A/B cell *)

Section ABTest.

Lemma ab_test_runs (na ca nb cb : Z) :
  na <> 0%Z ->
  ab_test na ca nb cb =
  lift_library (pvalue_greater cb nb (inject_Z ca / inject_Z na)).
Proof.
  intros H. unfold ab_test, py_truediv.
  destruct (Z.eqb_spec na 0); [contradiction|]. reflexivity.
Qed.

Lemma inject_Z_pos (z : Z) : (0 < z)%Z -> 0 < inject_Z z.
Proof. intros H. change 0 with (inject_Z 0). rewrite <- Zlt_Qlt. exact H. Qed.

Lemma rate_in_unit_interval (na ca : Z) :
  (0 < na)%Z -> (0 <= ca <= na)%Z ->
  0 <= inject_Z ca / inject_Z na /\ inject_Z ca / inject_Z na <= 1.
Proof.
  intros Hn Hc. pose proof (inject_Z_pos na Hn) as P. split.
  - apply Qle_shift_div_l; [exact P|]. rewrite Qmult_0_l.
    change 0 with (inject_Z 0). rewrite <- Zle_Qle. lia.
  - apply Qle_shift_div_r; [exact P|]. rewrite Qmult_1_l.
    rewrite <- Zle_Qle. lia.
Qed.

Lemma rate_scaled (k na ca : Z) :
  (0 < k)%Z -> (0 < na)%Z ->
  inject_Z (k * ca) / inject_Z (k * na) == inject_Z ca / inject_Z na.
Proof.
  intros Hk Hn. rewrite !inject_Z_mult.
  pose proof (inject_Z_pos k Hk). pose proof (inject_Z_pos na Hn).
  field. split; lra.
Qed.

Lemma pmf_compat (n : nat) (p p' : Q) (k : nat) :
  p == p' -> pmf n p k == pmf n p' k.
Proof.
  intros E. unfold pmf.
  rewrite (Qpow_compat p p' k E).
  rewrite (Qpow_compat (1 - p) (1 - p') (n - k)) by (rewrite E; reflexivity).
  reflexivity.
Qed.

Lemma binom_cdf_compat (k n : Z) (p p' : Q) :
  p == p' -> binom_cdf k n p == binom_cdf k n p'.
Proof.
  intros E. unfold binom_cdf.
  destruct (n <=? k)%Z; [reflexivity|].
  destruct (k <? 0)%Z; [reflexivity|].
  unfold cdf_sum. apply sum_to_ext. intros i _. apply pmf_compat. exact E.
Qed.

End ABTest.

(** X7. Counts that make sense give a probability: with a non-empty group A
    (na > 0), 0 <= ca <= na and nb >= 0 the A/B cell raises nothing and
    returns a finite p-value in [0, 1], never nan, for every cb. *)
Theorem ab_test_returns_probability (na ca nb cb : Z) :
  (0 < na)%Z -> (0 <= ca <= na)%Z -> (0 <= nb)%Z ->
  exists v, ab_yields (ab_test na ca nb cb) v /\ 0 <= v /\ v <= 1.
Proof.
  intros Hna Hca Hnb.
  destruct (rate_in_unit_interval na ca Hna Hca) as [R0 R1].
  rewrite ab_test_runs by lia.
  rewrite pvalue_greater_valid by assumption. simpl.
  exists (1 - binom_cdf (cb - 1) nb (inject_Z ca / inject_Z na)).
  split; [reflexivity|].
  pose proof (binom_cdf_bounds (cb - 1) nb _ R0 R1). lra.
Qed.

Lemma ab_test_returns_probability_witness :
  exists v, ab_yields (ab_test 50 10 100 30) v /\ 0 <= v /\ v <= 1.
Proof.
  apply (ab_test_returns_probability 50 10 100 30); lia.
Defined.

(** X9. Group A enters only through its rate: multiplying ca and na by the
    same k > 0 leaves the A/B p-value unchanged, so the size of group A has
    no influence on the result. *)
Theorem ab_test_ignores_size_of_group_a (k na ca nb cb : Z) :
  (0 < k)%Z -> (0 < na)%Z -> (0 <= ca <= na)%Z -> (0 <= nb)%Z ->
  exists v,
    ab_yields (ab_test na ca nb cb) v /\
    ab_yields (ab_test (k * na) (k * ca) nb cb) v.
Proof.
  intros Hk Hna Hca Hnb.
  destruct (rate_in_unit_interval na ca Hna Hca) as [R0 R1].
  destruct (rate_in_unit_interval (k * na) (k * ca)) as [S0 S1]; [nia | nia |].
  rewrite !ab_test_runs by nia.
  rewrite !pvalue_greater_valid by assumption. simpl.
  exists (1 - binom_cdf (cb - 1) nb (inject_Z ca / inject_Z na)).
  split; [reflexivity|].
  rewrite (binom_cdf_compat (cb - 1) nb _ _ (rate_scaled k na ca Hk Hna)).
  reflexivity.
Qed.

Lemma ab_test_ignores_size_of_group_a_witness :
  exists v,
    ab_yields (ab_test 50 10 100 30) v /\
    ab_yields (ab_test (100 * 50) (100 * 10) 100 30) v.
Proof.
  apply (ab_test_ignores_size_of_group_a 100 50 10 100 30); lia.
Defined.

(** ** Shape of the two-tailed p-value *)

Section TwoTailedShape.

Variable cdf : Q -> Q.

Lemma two_tailed_p_mirror (x x' : Q) :
  cdf x' == 1 - cdf x -> two_tailed_p cdf x' == two_tailed_p cdf x.
Proof.
  intros E. unfold two_tailed_p.
  destruct (Q.min_spec (cdf x) (1 - cdf x)) as [[H1 E1]|[H1 E1]];
    destruct (Q.min_spec (cdf x') (1 - cdf x')) as [[H2 E2]|[H2 E2]];
    rewrite E1, E2; lra.
Qed.

Lemma two_tailed_p_le_iff (x alpha : Q) :
  two_tailed_p cdf x <= alpha <->
  cdf x <= alpha / 2 \/ 1 - alpha / 2 <= cdf x.
Proof.
  unfold two_tailed_p.
  assert (D : alpha / 2 == alpha * (1 # 2)) by (field; discriminate).
  rewrite D.
  destruct (Q.min_spec (cdf x) (1 - cdf x)) as [[H E]|[H E]]; rewrite E;
    split; intros G; lra.
Qed.

End TwoTailedShape.

(** X13. Both tails count alike: if two arrays of observations mirror each
    other in the distribution, F(x') = 1 - F(x) position by position, the
    arrays of their two-tailed p-values are equal position by position. *)
Theorem p_values_mirror (cdf : Q -> Q) (obs obs' : list Q) :
  Forall2 (fun x x' => cdf x' == 1 - cdf x) obs obs' ->
  Forall2 Qeq (p_values cdf obs) (p_values cdf obs').
Proof.
  intros H. rewrite !p_values_pointwise.
  induction H as [|x x' l l' E _ IH]; simpl.
  - constructor.
  - constructor; [|exact IH].
    symmetry. apply two_tailed_p_mirror. exact E.
Qed.

Lemma p_values_mirror_witness :
  Forall2 Qeq
    (p_values (fun x => Qmax 0 (Qmin 1 x)) [1 # 10; 1 # 2])
    (p_values (fun x => Qmax 0 (Qmin 1 x)) [9 # 10; 1 # 2]).
Proof.
  apply (p_values_mirror (fun x => Qmax 0 (Qmin 1 x))).
  repeat constructor.
Defined.

(** X14. A p-value is at most alpha exactly in the two outer alpha/2 tails:
    for every observation x of the array and its p-value v,
    v <= alpha holds if and only if F(x) <= alpha/2 or F(x) >= 1 - alpha/2. *)
Theorem p_values_rejection_region (cdf : Q -> Q) (alpha : Q) (obs : list Q) :
  Forall2
    (fun x v => v <= alpha <-> cdf x <= alpha / 2 \/ 1 - alpha / 2 <= cdf x)
    obs (p_values cdf obs).
Proof.
  rewrite p_values_pointwise.
  induction obs as [|x xs IH]; simpl; constructor.
  - apply two_tailed_p_le_iff.
  - exact IH.
Qed.

(** X15. The doubled one-tailed p-value of the two-sided cell agrees with
    the array formula only on its own side: [2*(1 - F(xbar))] is the
    two-tailed p-value when F(xbar) >= 1/2, the formula of the cell's comment,
    [2*F(xbar)], is it when F(xbar) <= 1/2, and [2*(1 - F(xbar))] used below
    the middle, F(xbar) < 1/2, exceeds 1. *)
Theorem two_sided_cell_sides (cdf : Q -> Q) (xbar : Q) :
  (1 # 2 <= cdf xbar -> two_sided_upper_p cdf xbar == two_tailed_p cdf xbar) /\
  (cdf xbar <= 1 # 2 -> two_sided_lower_p cdf xbar == two_tailed_p cdf xbar) /\
  (cdf xbar < 1 # 2 -> 1 < two_sided_upper_p cdf xbar).
Proof.
  unfold two_sided_upper_p, two_sided_lower_p, two_tailed_p.
  destruct (Q.min_spec (cdf xbar) (1 - cdf xbar)) as [[H E]|[H E]]; rewrite E;
    repeat split; intros G; lra.
Qed.

Lemma two_sided_cell_sides_witness :
  1 < two_sided_upper_p (fun x => Qmax 0 (Qmin 1 x)) (1 # 4).
Proof.
  apply (proj2 (proj2 (two_sided_cell_sides (fun x => Qmax 0 (Qmin 1 x)) (1 # 4)))).
  reflexivity.
Defined.

(** X16. The further out in a tail, the smaller the two-tailed p-value: for
    a non-decreasing distribution function and x <= y, the p-value of x is at
    most that of y when both lie at or below the middle (F(y) <= 1/2), and at
    least that of y when both lie at or above it (F(x) >= 1/2). *)
Theorem two_tailed_p_shrinks_outwards (cdf : Q -> Q) (x y : Q) :
  (forall a b, a <= b -> cdf a <= cdf b) -> x <= y ->
  (cdf y <= 1 # 2 -> two_tailed_p cdf x <= two_tailed_p cdf y) /\
  (1 # 2 <= cdf x -> two_tailed_p cdf y <= two_tailed_p cdf x).
Proof.
  intros M Hxy. specialize (M x y Hxy). unfold two_tailed_p.
  destruct (Q.min_spec (cdf x) (1 - cdf x)) as [[H1 E1]|[H1 E1]];
    destruct (Q.min_spec (cdf y) (1 - cdf y)) as [[H2 E2]|[H2 E2]];
    rewrite E1, E2; split; intros G; lra.
Qed.

Lemma two_tailed_p_shrinks_outwards_witness :
  two_tailed_p (fun x => binom_cdf (Qfloor x) 10 (1 # 2)) 2
  <= two_tailed_p (fun x => binom_cdf (Qfloor x) 10 (1 # 2)) 4.
Proof.
  refine (proj1 (two_tailed_p_shrinks_outwards
                   (fun x => binom_cdf (Qfloor x) 10 (1 # 2)) 2 4 _ _) _).
  - intros a b Hab. apply binom_cdf_mono; try discriminate.
    apply Qfloor_resp_le. exact Hab.
  - discriminate.
  - vm_compute. discriminate.
Defined.

(** ** Increasing the sample size

    With the observed proportion held at [r = c/n], the threshold [c = r n]
    moves with [n] and is an integer only for some [n].  The argument follows
    the tail one trial at a time through the fractional thresholds in
    between: at [n] trials the threshold is [k + 1 + theta], and one more
    trial either keeps the count [k] (new fraction [theta + r]) or moves to
    [k + 1] (new fraction [theta + r - 1]).  Above the baseline each of these
    steps lowers [frac_tail]. *)

Section Absorb.



Variable p : Q.
Hypothesis p_pos : 0 < p.
Hypothesis p_lt1 : p < 1.





End Absorb.

Section Steps.

Variables p r : Q.
Hypothesis p_pos : 0 < p.
Hypothesis p_lt1 : p < 1.
Hypothesis above : p < r.
Hypothesis r_le1 : r <= 1.





End Steps.

Section Ray.

Variables p r : Q.
Hypothesis p_pos : 0 < p.
Hypothesis p_lt1 : p < 1.
Hypothesis above : p < r.
Hypothesis r_le1 : r <= 1.



End Ray.




(** The capped two-sided p-value does not strictly decrease either: with
    p0 = 0.3 and c/n = 1/3 it is 1 at n = 3 and at n = 6. *)
Example two_sided_stays_capped :
  yields (test_proportion 1 3 (3 # 10) two_sided) 1 /\
  yields (test_proportion 2 6 (3 # 10) two_sided) 1.
Proof. split; vm_compute; reflexivity. Qed.
